(** * STREL formulas and interval expansion (automatix/logic/strel.py)

    A shallow embedding of the formula classes of [strel.py]: the two
    interval dataclasses with their [__post_init__] validation, the
    iterator of a time interval, the [Expr] class hierarchy, the
    [expand_intervals] methods, [Expr.__invert__], [Identifier.__str__] and
    the [ESCAPED_STRING] terminal of the parse-tree transformer.

    Python integers are [Z], Python floats are IEEE binary64 values
    ([PrimFloat.float]), [Optional[T]] is [option T], and a raised
    exception is the [Raise] case of [result]. *)

From Stdlib Require Import ZArith List String Bool Lia PrimFloat.
Import ListNotations.

Local Open Scope string_scope.
Local Open Scope Z_scope.

(** ** Exceptions *)

Inductive exn : Type :=
| ValueError (msg : string)
| AssertionError (msg : string)
| RuntimeError (msg : string).

Inductive result (A : Type) : Type :=
| Ok (a : A)
| Raise (e : exn).

Arguments Ok {A} a.
Arguments Raise {A} e.

(** [is_ValueError r]: the call raised an exception of class [ValueError]. *)
Definition is_ValueError {A : Type} (r : result A) : bool :=
  match r with
  | Raise (ValueError _) => true
  | _ => false
  end.

Definition is_Ok {A : Type} (r : result A) : bool :=
  match r with
  | Ok _ => true
  | Raise _ => false
  end.

(** ** Iterators

    The three kinds of iterator [TimeInterval.__iter__] returns:
    [itertools.count(n)], [iter(range(cur, stop))] and [iter(list)].
    [next] is one call of [__next__]; [None] is [StopIteration]. *)

Inductive Iterator : Type :=
| count (n : Z)
| range (cur stop : Z)
| list_iter (l : list Z).

Definition next (it : Iterator) : option (Z * Iterator) :=
  match it with
  | count n => Some (n, count (n + 1))
  | range cur stop =>
      if cur <? stop then Some (cur, range (cur + 1) stop) else None
  | list_iter [] => None
  | list_iter (x :: l) => Some (x, list_iter l)
  end.

(** [islice it n]: the first [n] items of the iterator (fewer when it stops). *)
Fixpoint islice (it : Iterator) (n : nat) : list Z :=
  match n with
  | O => []
  | S n' =>
      match next it with
      | Some (x, it') => x :: islice it' n'
      | None => []
      end
  end.

(** [stops_within it n]: the iterator raises [StopIteration] at one of its
    first [n + 1] calls of [next]. *)
Fixpoint stops_within (it : Iterator) (n : nat) : bool :=
  match next it with
  | None => true
  | Some (_, it') =>
      match n with
      | O => false
      | S n' => stops_within it' n'
      end
  end.

(** ** TimeInterval *)

Module TimeInterval.

Record t : Type := mk { start : option Z; end_ : option Z }.

(** The dataclass constructor [TimeInterval(start, end)]: the fields are
    stored and [__post_init__] validates them. *)
Definition new (start end_ : option Z) : result t :=
  match start, end_ with
  | Some t1, Some t2 =>
      if t1 =? t2 then
        Raise (ValueError "Time intervals cannot be point values [a,a]")
      else if t1 >? t2 then
        Raise (ValueError "Time interval [a,b] cannot have a > b")
      else if (t1 <? 0) || (t2 <? 0) then
        Raise (ValueError "Time interval cannot have negative bounds")
      else Ok (mk start end_)
  | _, _ => Ok (mk start end_)
  end.

(** [math.isinf] of an integer is always [False]. *)
Definition is_unbounded (self : t) : bool :=
  match end_ self with
  | None => true
  | Some _ => false
  end.


(** [__iter__] *)
Definition iter (self : t) : Iterator :=
  match start self, end_ self with
  | Some start, None => count start
  | None, Some end_ => range 0 (end_ + 1)
  | Some start, Some end_ => range start (end_ + 1)
  | None, None => list_iter []
  end.

End TimeInterval.

(** ** DistanceInterval *)

Module DistanceInterval.

Record t : Type := mk { start : float; end_ : float }.

(** The dataclass constructor [DistanceInterval(start, end)]:
    [__post_init__] first replaces a missing [start] by [0.0] and a
    missing [end] by [math.inf], then validates.  (The second message of
    the source ends with the two bounds formatted into it.) *)
Definition new (start end_ : option float) : result t :=
  let start := match start with None => 0%float | Some s => s end in
  let end_ := match end_ with None => infinity | Some e => e end in
  if (ltb start 0 || ltb end_ 0)%bool then
    Raise (ValueError "Distane cannot be less than 0")
  else if leb end_ start then
    Raise (ValueError "Distance interval cannot have `start` >= `end`")
  else Ok (mk start end_).

End DistanceInterval.

(** ** The [Expr] classes

    One constructor per frozen dataclass deriving from [Expr]; the
    constructor holds the fields as stored.  The Python constructor call of
    a class with a [__post_init__] is the function [new_...] below.
    ([Identifier.__post_init__] only asserts that the name is not blank; no
    method below reads the name.) *)

Inductive Expr : Type :=
| Constant (value : bool)
| Identifier (name : string)
| NotOp (arg : Expr)
| AndOp (lhs rhs : Expr)
| OrOp (lhs rhs : Expr)
| EverywhereOp (interval : DistanceInterval.t) (arg : Expr)
| SomewhereOp (interval : DistanceInterval.t) (arg : Expr)
| EscapeOp (interval : DistanceInterval.t) (arg : Expr)
| ReachOp (lhs : Expr) (interval : DistanceInterval.t) (rhs : Expr)
| NextOp (steps : option Z) (arg : Expr)
| GloballyOp (interval : option TimeInterval.t) (arg : Expr)
| EventuallyOp (interval : option TimeInterval.t) (arg : Expr)
| UntilOp (lhs : Expr) (interval : option TimeInterval.t) (rhs : Expr).

(** [NextOp(steps, arg)]: [__post_init__] rejects [steps <= 0] and stores
    [steps == 1] as [None]. *)
Definition new_NextOp (steps : option Z) (arg : Expr) : result Expr :=
  match steps with
  | Some t =>
      if t <=? 0 then
        Raise (ValueError "Next operator cannot have non-positive steps")
      else if t =? 1 then Ok (NextOp None arg)
      else Ok (NextOp steps arg)
  | None => Ok (NextOp steps arg)
  end.

(** The [__post_init__] shared by [GloballyOp], [EventuallyOp] and [UntilOp]:
    the intervals [None], [TimeInterval(None, None)] and
    [TimeInterval(0, None)] are all stored as [None]. *)
Definition collapse (interval : option TimeInterval.t) : option TimeInterval.t :=
  match interval with
  | None => None
  | Some (TimeInterval.mk None None) => None
  | Some (TimeInterval.mk (Some 0) None) => None
  | Some _ => interval
  end.

Definition new_GloballyOp (interval : option TimeInterval.t) (arg : Expr) : Expr :=
  GloballyOp (collapse interval) arg.

Definition new_EventuallyOp (interval : option TimeInterval.t) (arg : Expr) : Expr :=
  EventuallyOp (collapse interval) arg.

Definition new_UntilOp (lhs : Expr) (interval : option TimeInterval.t) (rhs : Expr) : Expr :=
  UntilOp lhs (collapse interval) rhs.

(** [isinstance(e, NotOp)] *)
Definition isinstance_NotOp (e : Expr) : bool :=
  match e with
  | NotOp _ => true
  | _ => false
  end.

(** [expr = init; for _ in range(t): expr = body(expr)]: [range(t)] is empty
    when [t <= 0]. *)
Definition for_range (t : Z) (body : Expr -> Expr) (init : Expr) : Expr :=
  Nat.iter (Z.to_nat t) body init.

(** ** Computations: recursion depth and exceptions

    A call of [expand_intervals] either returns an expression or raises.
    The methods call each other on freshly built nodes, so the recursion is
    not structural; the embedding bounds the depth of nested calls by a
    [fuel] argument and answers [None] when the bound is reached. *)

Definition comp (A : Type) : Type := option (result A).

Definition ret {A : Type} (a : A) : comp A := Some (Ok a).

Definition raise {A : Type} (e : exn) : comp A := Some (Raise e).

Definition lift {A : Type} (r : result A) : comp A := Some r.

Definition cbind {A B : Type} (m : comp A) (k : A -> comp B) : comp B :=
  match m with
  | Some (Ok a) => k a
  | Some (Raise e) => Some (Raise e)
  | None => None
  end.

Notation "x <- m ;; k" := (cbind m (fun x => k))
  (at level 61, m at next level, right associativity).

(** [assert cond] *)
Definition assert (cond : bool) : comp unit :=
  if cond then ret tt else raise (AssertionError "").

(** ** expand_intervals

    Every class's [expand_intervals] method is one branch; a class without an
    override ([Constant], [Identifier], [AndOp]) runs [Expr.expand_intervals],
    which returns [self].  The branches of the [match self.interval]
    statements are tried in the order of the source. *)

Fixpoint expand_intervals_fuel (fuel : nat) (self : Expr) : comp Expr :=
  match fuel with
  | O => None
  | S fuel =>
      match self with
      (* Expr.expand_intervals, not overridden *)
      | Constant _ | Identifier _ | AndOp _ _ => ret self
      | NotOp arg =>
          arg <- expand_intervals_fuel fuel arg ;;
          if isinstance_NotOp arg then ret arg else ret (NotOp arg)
      | OrOp lhs rhs =>
          lhs <- expand_intervals_fuel fuel lhs ;;
          rhs <- expand_intervals_fuel fuel rhs ;;
          ret (OrOp lhs rhs)
      | EverywhereOp interval arg =>
          arg <- expand_intervals_fuel fuel arg ;;
          ret (EverywhereOp interval arg)
      | SomewhereOp interval arg =>
          arg <- expand_intervals_fuel fuel arg ;;
          ret (SomewhereOp interval arg)
      | EscapeOp interval arg =>
          arg <- expand_intervals_fuel fuel arg ;;
          ret (EscapeOp interval arg)
      | ReachOp lhs interval rhs =>
          lhs <- expand_intervals_fuel fuel lhs ;;
          rhs <- expand_intervals_fuel fuel rhs ;;
          ret (ReachOp lhs interval rhs)
      | NextOp steps arg =>
          arg <- expand_intervals_fuel fuel arg ;;
          match steps with
          | None => lift (new_NextOp None arg)
          | Some t => ret (for_range t (fun expr => NextOp None expr) arg)
          end
      | GloballyOp interval arg =>
          expand_intervals_fuel fuel
            (NotOp (new_EventuallyOp interval (NotOp arg)))
      | EventuallyOp interval arg =>
          match interval with
          | None
          | Some (TimeInterval.mk None None)
          | Some (TimeInterval.mk (Some 0) None) =>
              (* Unbounded F *)
              arg <- expand_intervals_fuel fuel arg ;;
              ret (new_EventuallyOp None arg)
          | Some (TimeInterval.mk (Some 0) (Some t2))
          | Some (TimeInterval.mk None (Some t2)) =>
              (* F[0, t2] *)
              arg <- expand_intervals_fuel fuel arg ;;
              ret (for_range t2 (fun expr => OrOp expr (NextOp None arg)) arg)
          | Some (TimeInterval.mk (Some t1) None) =>
              (* F[t1, inf] *)
              _ <- assert (t1 >? 0) ;;
              e <- lift (new_NextOp (Some t1) (new_EventuallyOp None arg)) ;;
              expand_intervals_fuel fuel e
          | Some (TimeInterval.mk (Some t1) (Some t2)) =>
              (* F[t1, t2] = X[t1] F[0, t2 - t1] arg *)
              _ <- assert (t1 >? 0) ;;
              i <- lift (TimeInterval.new (Some 0) (Some (t2 - t1))) ;;
              e <- lift (new_NextOp (Some t1) (new_EventuallyOp (Some i) arg)) ;;
              expand_intervals_fuel fuel e
          end
      | UntilOp lhs interval rhs =>
          new_lhs <- expand_intervals_fuel fuel lhs ;;
          new_rhs <- expand_intervals_fuel fuel rhs ;;
          match interval with
          | None
          | Some (TimeInterval.mk None None)
          | Some (TimeInterval.mk (Some 0) None) =>
              ret (new_UntilOp new_lhs None new_rhs)
          | Some (TimeInterval.mk t1 None) =>
              (* Unbounded end *)
              i <- lift (TimeInterval.new (Some 0) t1) ;;
              expand_intervals_fuel fuel
                (new_GloballyOp (Some i) (new_UntilOp new_lhs None new_rhs))
          | Some (TimeInterval.mk t1 (Some _)) =>
              z1 <- expand_intervals_fuel fuel (new_EventuallyOp interval new_lhs) ;;
              until_interval <- lift (TimeInterval.new t1 None) ;;
              z2 <- expand_intervals_fuel fuel
                      (new_UntilOp new_lhs (Some until_interval) new_rhs) ;;
              ret (AndOp z1 z2)
          end
      end
  end.

(** ** A bound on the recursion depth

    [depth_bound e] bounds the number of nested calls [e.expand_intervals()]
    makes.  It counts the magnitude of every temporal bound, since an
    expanded formula is as deep as its bounds are large and [UntilOp]
    expands what it has already expanded. *)

Definition bound_of (b : option Z) : nat :=
  match b with
  | None => O
  | Some t => Z.to_nat t
  end.

Definition interval_bound (interval : option TimeInterval.t) : nat :=
  match interval with
  | None => O
  | Some i => (bound_of (TimeInterval.start i) + bound_of (TimeInterval.end_ i))%nat
  end.

Definition eventually_weight (interval : option TimeInterval.t) : nat :=
  match collapse interval with
  | None => 1
  | Some _ => 3 + interval_bound interval
  end%nat.

Definition until_weight (interval : option TimeInterval.t) : nat :=
  match interval with
  | None => 1
  | Some (TimeInterval.mk None None) => 1
  | Some (TimeInterval.mk (Some 0%Z) None) => 1
  | Some (TimeInterval.mk t1 None) => 8 + bound_of t1
  | Some (TimeInterval.mk t1 (Some t2)) => 9 + bound_of t1 + Z.to_nat t2
  end%nat.

Fixpoint depth_bound (e : Expr) : nat :=
  match e with
  | Constant _ | Identifier _ => 1
  | NotOp arg => 1 + depth_bound arg
  | AndOp lhs rhs => 1 + Nat.max (depth_bound lhs) (depth_bound rhs)
  | OrOp lhs rhs => 1 + Nat.max (depth_bound lhs) (depth_bound rhs)
  | EverywhereOp _ arg | SomewhereOp _ arg | EscapeOp _ arg => 1 + depth_bound arg
  | ReachOp lhs _ rhs => 1 + Nat.max (depth_bound lhs) (depth_bound rhs)
  | NextOp steps arg => Nat.max 1 (bound_of steps) + depth_bound arg
  | GloballyOp interval arg => 6 + interval_bound interval + depth_bound arg
  | EventuallyOp interval arg => eventually_weight interval + depth_bound arg
  | UntilOp lhs interval rhs =>
      until_weight interval + Nat.max (depth_bound lhs) (depth_bound rhs)
  end%nat.

(** [e.expand_intervals()], run with the recursion depth [depth_bound e]
    (theorem [expand_intervals_terminates]: that depth is never reached). *)
Definition expand_intervals (self : Expr) : comp Expr :=
  expand_intervals_fuel (depth_bound self) self.

(** ** Predicates on formulas *)

(** A [Constant] or an [Identifier]. *)
Definition is_atomic (e : Expr) : bool :=
  match e with
  | Constant _ | Identifier _ => true
  | _ => false
  end.

Definition is_None {A : Type} (o : option A) : bool :=
  match o with
  | None => true
  | Some _ => false
  end.

(** [canonical e]: no [GloballyOp] node anywhere in [e], and every
    [EventuallyOp] and [UntilOp] node of [e] has the interval [None]. *)
Fixpoint canonical (e : Expr) : bool :=
  match e with
  | Constant _ | Identifier _ => true
  | NotOp arg => canonical arg
  | AndOp lhs rhs | OrOp lhs rhs => canonical lhs && canonical rhs
  | EverywhereOp _ arg | SomewhereOp _ arg | EscapeOp _ arg => canonical arg
  | ReachOp lhs _ rhs => canonical lhs && canonical rhs
  | NextOp _ arg => canonical arg
  | GloballyOp _ _ => false
  | EventuallyOp interval arg => is_None interval && canonical arg
  | UntilOp lhs interval rhs => is_None interval && canonical lhs && canonical rhs
  end.

(** [and_guarded e]: the operands of every [AndOp] node of [e] are already
    canonical. *)
Fixpoint and_guarded (e : Expr) : bool :=
  match e with
  | Constant _ | Identifier _ => true
  | AndOp lhs rhs => canonical lhs && canonical rhs
  | NotOp arg
  | EverywhereOp _ arg | SomewhereOp _ arg | EscapeOp _ arg
  | NextOp _ arg | GloballyOp _ arg | EventuallyOp _ arg => and_guarded arg
  | OrOp lhs rhs | ReachOp lhs _ rhs | UntilOp lhs _ rhs =>
      and_guarded lhs && and_guarded rhs
  end.

(** [valid_interval i]: a value [TimeInterval(start, end)] builds with both
    bounds non-negative. *)
Definition valid_bound (b : option Z) : bool :=
  match b with
  | None => true
  | Some t => 0 <=? t
  end.

Definition valid_interval (i : TimeInterval.t) : bool :=
  is_Ok (TimeInterval.new (TimeInterval.start i) (TimeInterval.end_ i))
  && valid_bound (TimeInterval.start i) && valid_bound (TimeInterval.end_ i).

(** The interval field of a built temporal operator: collapsed by
    [__post_init__], and a valid interval when present. *)
Definition valid_temporal (interval : option TimeInterval.t) : bool :=
  match interval with
  | None => true
  | Some i =>
      valid_interval i && negb (is_None (collapse interval))
  end.

(** [valid e]: every node of [e] is the value of a constructor call whose
    time bounds are non-negative integers. *)
Fixpoint valid (e : Expr) : bool :=
  match e with
  | Constant _ | Identifier _ => true
  | NotOp arg
  | EverywhereOp _ arg | SomewhereOp _ arg | EscapeOp _ arg => valid arg
  | AndOp lhs rhs | OrOp lhs rhs | ReachOp lhs _ rhs => valid lhs && valid rhs
  | NextOp steps arg =>
      match steps with
      | None => valid arg
      | Some t => (1 <? t) && valid arg
      end
  | GloballyOp interval arg | EventuallyOp interval arg =>
      valid_temporal interval && valid arg
  | UntilOp lhs interval rhs =>
      valid_temporal interval && valid lhs && valid rhs
  end.

(** ** What the documentation asks of a bounded eventually

    [nested_next k a] is [a] under [k] single-step [NextOp]s, and
    [eventually_unrolled t2 a] is the left-associated disjunction
    [a | X a | X X a | ... | X^t2 a] of [t2 + 1] terms: the formula
    equivalent to [F[0, t2] a], as the specification words it. *)

Definition nested_next (k : nat) (a : Expr) : Expr :=
  Nat.iter k (fun expr => NextOp None expr) a.

Fixpoint eventually_unrolled (t2 : nat) (a : Expr) : Expr :=
  match t2 with
  | O => a
  | S k => OrOp (eventually_unrolled k a) (nested_next (S k) a)
  end.

(** ** Outcomes of a terminated call *)

(** A value no deeper than [d], or an exception. *)
Definition bounded_by (d : nat) (r : result Expr) : Prop :=
  match r with
  | Ok y => (depth_bound y <= d)%nat
  | Raise _ => True
  end.



(** [instants start len]: the [len] consecutive integers from [start]. *)
Definition instants (start : Z) (len : nat) : list Z :=
  map (fun k => start + Z.of_nat k) (seq 0 len).

(** The first instant of an interval: [0] when [start] is [None]. *)
Definition first_instant (i : TimeInterval.t) : Z :=
  match TimeInterval.start i with
  | None => 0
  | Some s => s
  end.

(** ** Further methods of the classes *)

(** [Expr.__invert__] *)
Definition invert (self : Expr) : Expr :=
  match self with
  | NotOp arg => arg
  | phi => NotOp phi
  end.

(** [e] is [NotOp(NotOp(_))]. *)
Definition is_double_negation (e : Expr) : bool :=
  match e with
  | NotOp (NotOp _) => true
  | _ => false
  end.

(** [_TransformTerminals.ESCAPED_STRING]: the slice [s[1:-1]], empty when
    [s] has fewer than two characters. *)
Definition ESCAPED_STRING (s : string) : string :=
  substring 1 (String.length s - 2) s.

(** The character [chr(34)], the double quote. *)
Definition quote : Ascii.ascii := Ascii.ascii_of_nat 34.

(** [Identifier.__str__]; [isalnum] stands for Python's [str.isalnum]. *)
Definition Identifier_str (isalnum : string -> bool) (name : string) : string :=
  if isalnum name then name
  else String quote (name ++ String quote EmptyString).

(** ** The shape of an expanded formula

    [expanded e]: outside the operands of [AndOp] nodes, [e] has no
    [GloballyOp], no interval on an [EventuallyOp] or [UntilOp], no step
    count on a [NextOp], and no [NotOp] directly under a [NotOp]. *)
Fixpoint expanded (e : Expr) : bool :=
  match e with
  | Constant _ | Identifier _ | AndOp _ _ => true
  | NotOp arg => negb (isinstance_NotOp arg) && expanded arg
  | OrOp lhs rhs | ReachOp lhs _ rhs => expanded lhs && expanded rhs
  | EverywhereOp _ arg | SomewhereOp _ arg | EscapeOp _ arg => expanded arg
  | NextOp steps arg => is_None steps && expanded arg
  | GloballyOp _ _ => false
  | EventuallyOp interval arg => is_None interval && expanded arg
  | UntilOp lhs interval rhs => is_None interval && expanded lhs && expanded rhs
  end.

(** The number of nodes of a formula. *)
Fixpoint node_count (e : Expr) : nat :=
  match e with
  | Constant _ | Identifier _ => 1
  | NotOp arg
  | EverywhereOp _ arg | SomewhereOp _ arg | EscapeOp _ arg
  | NextOp _ arg | GloballyOp _ arg | EventuallyOp _ arg => 1 + node_count arg
  | AndOp lhs rhs | OrOp lhs rhs | ReachOp lhs _ rhs | UntilOp lhs _ rhs =>
      1 + node_count lhs + node_count rhs
  end%nat.

(** [NotOp(a).expand_intervals()] once [a] has expanded to [a']. *)
Definition negation_of (a' : Expr) : Expr :=
  if isinstance_NotOp a' then a' else NotOp a'.

(** The number of single-step [NextOp]s that [NextOp(steps, _)] unrolls to. *)
Definition steps_of (steps : option Z) : nat :=
  match steps with
  | None => 1
  | Some t => Z.to_nat t
  end.

(** The disjunction [EventuallyOp.expand_intervals] builds for [F[0, t2]]
    from the expanded operand [a]. *)
Definition or_chain (t2 : Z) (a : Expr) : Expr :=
  for_range t2 (fun expr => OrOp expr (NextOp None a)) a.

(** * Properties *)

(** ** The recursion depth is bounded *)

Lemma depth_bound_pos (e : Expr) : (1 <= depth_bound e)%nat.
Proof.
  destruct e; cbn [depth_bound]; try lia;
    destruct interval as [[[[|p|p]|] [t2|]]|];
    cbn [until_weight eventually_weight collapse]; lia.
Qed.

Lemma collapse_eventually_weight (interval : option TimeInterval.t) :
  (eventually_weight (collapse interval)
   <= 3 + interval_bound interval)%nat.
Proof.
  destruct interval as [[[[|p|p]|] [t2|]]|];
    cbn [eventually_weight collapse interval_bound]; lia.
Qed.

Lemma for_range_next_depth (t : Z) (a : Expr) :
  depth_bound (for_range t (fun expr => NextOp None expr) a)
  = (Z.to_nat t + depth_bound a)%nat.
Proof.
  unfold for_range, Nat.iter. induction (Z.to_nat t) as [|k IH]; cbn [Nat.iter nat_rect depth_bound bound_of] in *; lia.
Qed.

Lemma for_range_or_depth (t : Z) (a : Expr) :
  (depth_bound (for_range t (fun expr => OrOp expr (NextOp None a)) a)
   <= Z.to_nat t + 1 + depth_bound a)%nat.
Proof.
  unfold for_range, Nat.iter. induction (Z.to_nat t) as [|k IH]; cbn [Nat.iter nat_rect depth_bound bound_of] in *; lia.
Qed.

Lemma new_NextOp_depth (steps : option Z) (a e : Expr) :
  new_NextOp steps a = Ok e ->
  depth_bound e = (Nat.max 1 (bound_of steps) + depth_bound a)%nat.
Proof.
  unfold new_NextOp. destruct steps as [t|].
  - destruct (t <=? 0) eqn:H0; [discriminate|].
    destruct (t =? 1) eqn:H1; intros [= <-]; cbn [depth_bound bound_of]; lia.
  - intros [= <-]. reflexivity.
Qed.

Lemma TimeInterval_new_Ok (a b : option Z) (i : TimeInterval.t) :
  TimeInterval.new a b = Ok i -> i = TimeInterval.mk a b.
Proof.
  unfold TimeInterval.new.
  destruct a as [t1|], b as [t2|]; try (intros [= <-]; reflexivity).
  destruct (t1 =? t2); [discriminate|].
  destruct (t1 >? t2); [discriminate|].
  destruct ((t1 <? 0) || (t2 <? 0))%bool; [discriminate|].
  intros [= <-]; reflexivity.
Qed.

Lemma TimeInterval_new_valid (t1 t2 : Z) (i : TimeInterval.t) :
  TimeInterval.new (Some t1) (Some t2) = Ok i -> 0 <= t1 < t2.
Proof.
  unfold TimeInterval.new.
  destruct (t1 =? t2) eqn:E1; [discriminate|].
  destruct (t1 >? t2) eqn:E2; [discriminate|].
  destruct ((t1 <? 0) || (t2 <? 0))%bool eqn:E3; [discriminate|].
  intros _. apply Bool.orb_false_iff in E3. lia.
Qed.

Lemma bounded_by_le (d d' : nat) (r : result Expr) :
  bounded_by d r -> (d <= d')%nat -> bounded_by d' r.
Proof. destruct r; simpl; lia. Qed.

(** Run the call [expand_intervals_fuel n x] that heads the goal, from the
    induction hypothesis; an exception ends the computation at once. *)
Ltac call_expand IH x :=
  let r := fresh "r" in
  let Hr := fresh "Hr" in
  let Hb := fresh "Hb" in
  destruct (IH x) as [r [Hr Hb]];
  [ cbn [depth_bound until_weight eventually_weight interval_bound bound_of collapse
         new_EventuallyOp new_GloballyOp new_UntilOp
         TimeInterval.start TimeInterval.end_] in *; lia
  | rewrite Hr; destruct r as [?y|?ex]; cbn [cbind bounded_by] in Hb |- *;
    [ | eexists; split; [reflexivity | exact I] ] ].

Ltac depth_side :=
  cbn [depth_bound until_weight eventually_weight interval_bound bound_of collapse
       new_EventuallyOp new_GloballyOp new_UntilOp
       TimeInterval.start TimeInterval.end_] in *; lia.

(** The same for a call in tail position. *)
Ltac tail_expand IH x :=
  let r := fresh "r" in
  let Hr := fresh "Hr" in
  let Hb := fresh "Hb" in
  destruct (IH x) as [r [Hr Hb]];
  [ depth_side
  | exists r; split;
    [ exact Hr | eapply bounded_by_le; [exact Hb | depth_side] ] ].

(** Bind the result of a constructor call that may raise. *)
Ltac bind_new_NextOp :=
  match goal with
  | |- context [new_NextOp ?s ?a] =>
      let e := fresh "e" in
      let He := fresh "He" in
      destruct (new_NextOp s a) as [e|?ex] eqn:He; cbn [lift cbind];
      [ apply new_NextOp_depth in He
      | eexists; split; [reflexivity | exact I] ]
  end.

Ltac bind_TimeInterval_new :=
  match goal with
  | |- context [TimeInterval.new ?a ?b] =>
      let i := fresh "i" in
      let Hi := fresh "Hi" in
      destruct (TimeInterval.new a b) as [i|?ex] eqn:Hi; cbn [lift cbind];
      [ try (pose proof (TimeInterval_new_valid _ _ _ Hi));
        apply TimeInterval_new_Ok in Hi; subst i
      | eexists; split; [reflexivity | exact I] ]
  end.

Ltac finish :=
  eexists; split; [reflexivity|];
  cbn [bounded_by depth_bound until_weight eventually_weight interval_bound bound_of collapse
       new_EventuallyOp new_GloballyOp new_UntilOp
       TimeInterval.start TimeInterval.end_] in *; try lia.

Lemma expand_intervals_fuel_bounded (n : nat) :
  forall e : Expr, (depth_bound e <= n)%nat ->
  exists r, expand_intervals_fuel n e = Some r /\ bounded_by (depth_bound e) r.
Proof.
  induction n as [|n IH]; intros e Hn.
  - pose proof (depth_bound_pos e). lia.
  - destruct e as [v|name|arg|lhs rhs|lhs rhs|di arg|di arg|di arg|lhs di rhs
                  |steps arg|interval arg|interval arg|lhs interval rhs];
      cbn [expand_intervals_fuel]; cbn [depth_bound] in Hn.
    + finish.
    + finish.
    + call_expand IH arg. destruct (isinstance_NotOp y); finish.
    + finish.
    + call_expand IH lhs. call_expand IH rhs. finish.
    + call_expand IH arg. finish.
    + call_expand IH arg. finish.
    + call_expand IH arg. finish.
    + call_expand IH lhs. call_expand IH rhs. finish.
    + call_expand IH arg. destruct steps as [t|].
      * finish. rewrite for_range_next_depth. lia.
      * cbn [lift new_NextOp]. finish.
    + pose proof (collapse_eventually_weight interval).
      tail_expand IH (NotOp (new_EventuallyOp interval (NotOp arg))).
    + destruct interval as [[[[|p|p]|] [t2|]]|];
        cbn [assert Z.gtb Z.compare cbind ret raise].
      all: try (call_expand IH arg; finish).
      all: try (finish; fail).
      * pose proof (for_range_or_depth t2 y). lia.
      * bind_TimeInterval_new. bind_new_NextOp. tail_expand IH e.
      * bind_new_NextOp. tail_expand IH e.
      * pose proof (for_range_or_depth t2 y). lia.
    + destruct interval as [[[[|p|p]|] [t2|]]|];
        call_expand IH lhs; call_expand IH rhs.
      all: try (finish; fail).
      all: try (bind_TimeInterval_new;
                match goal with
                | |- context [expand_intervals_fuel _ ?x] => tail_expand IH x
                end; fail).
      all: match goal with
           | |- context [cbind (expand_intervals_fuel _ ?x) _] =>
               call_expand IH x
           end;
           cbn [lift cbind TimeInterval.new];
           match goal with
           | |- context [cbind (expand_intervals_fuel _ ?x) _] =>
               call_expand IH x
           end;
           finish.
Qed.

(** ** The result does not depend on the depth allowed *)

Lemma expand_intervals_fuel_mono (n : nat) :
  forall (e : Expr) (r : result Expr),
    expand_intervals_fuel n e = Some r ->
    forall m : nat, (n <= m)%nat -> expand_intervals_fuel m e = Some r.
Proof.
  induction n as [|n IH]; intros e r H m Hm; [discriminate|].
  destruct m as [|m]; [lia|].
  assert (Hle : (n <= m)%nat) by lia.
  destruct e as [v|name|arg|lhs rhs|lhs rhs|di arg|di arg|di arg|lhs di rhs
                |steps arg|interval arg|interval arg|lhs interval rhs];
    cbn [expand_intervals_fuel] in H |- *;
    try exact H;
    try (destruct interval as [[[[|p|p]|] [t2|]]|]);
    cbn [assert Z.gtb Z.compare cbind ret raise] in H |- *;
    repeat match goal with
      | H : context [cbind (expand_intervals_fuel n ?x) _] |- _ =>
          let E := fresh "E" in
          destruct (expand_intervals_fuel n x) as [[?y|?ex]|] eqn:E;
          cbn [cbind] in H; [ | | discriminate H];
          rewrite (IH _ _ E m Hle); cbn [cbind]
      | H : context [cbind (lift ?c) _] |- _ =>
          destruct c as [?y|?ex]; cbn [lift cbind] in H |- *
      | H : expand_intervals_fuel n ?x = Some _ |- _ =>
          apply (IH _ _ H m Hle)
      | H : match ?c with Ok _ => _ | Raise _ => _ end = Some _ |- _ =>
          destruct c as [?y|?ex]
      end;
    try exact H.
Qed.

(** ** Expansion on formulas whose conjunctions are already expanded *)

Lemma canonical_and_guarded (e : Expr) :
  canonical e = true -> and_guarded e = true.
Proof.
  induction e; cbn [canonical and_guarded]; intros H;
    repeat (apply andb_true_iff in H; destruct H as [H ?]);
    try discriminate; auto using andb_true_intro.
  all: rewrite ?IHe, ?IHe1, ?IHe2 by assumption; reflexivity.
Qed.

Lemma for_range_next_canonical (t : Z) (a : Expr) :
  canonical a = true ->
  canonical (for_range t (fun expr => NextOp None expr) a) = true.
Proof.
  intros Ha. unfold for_range, Nat.iter.
  induction (Z.to_nat t) as [|k IH]; cbn [nat_rect canonical]; assumption.
Qed.

Lemma for_range_or_canonical (t : Z) (a : Expr) :
  canonical a = true ->
  canonical (for_range t (fun expr => OrOp expr (NextOp None a)) a) = true.
Proof.
  intros Ha. unfold for_range, Nat.iter.
  induction (Z.to_nat t) as [|k IH]; cbn [nat_rect canonical];
    rewrite ?IH, ?Ha; reflexivity.
Qed.

Lemma new_NextOp_inv (steps : option Z) (a e : Expr) :
  new_NextOp steps a = Ok e -> exists s, e = NextOp s a.
Proof.
  unfold new_NextOp. destruct steps as [t|].
  - destruct (t <=? 0); [discriminate|].
    destruct (t =? 1); intros [= <-]; eauto.
  - intros [= <-]; eauto.
Qed.

Lemma expand_intervals_fuel_canonical (n : nat) :
  forall e y : Expr,
    and_guarded e = true ->
    expand_intervals_fuel n e = Some (Ok y) ->
    canonical y = true.
Proof.
  induction n as [|n IH]; intros e r Hg H; [discriminate|].
  destruct e as [v|name|arg|lhs rhs|lhs rhs|di arg|di arg|di arg|lhs di rhs
                |steps arg|interval arg|interval arg|lhs interval rhs];
    cbn [expand_intervals_fuel] in H;
    cbn [and_guarded] in Hg;
    try (apply andb_true_iff in Hg; destruct Hg as [Hg1 Hg2]);
    try (destruct interval as [[[[|p|p]|] [t2|]]|]);
    cbn [assert Z.gtb Z.compare cbind ret raise] in H;
    repeat match goal with
      | H : context [cbind (expand_intervals_fuel n ?x) _] |- _ =>
          let E := fresh "E" in
          destruct (expand_intervals_fuel n x) as [[?y|?ex]|] eqn:E;
          cbn [cbind] in H; [ | discriminate H | discriminate H];
          apply IH in E; [ | cbn [and_guarded new_EventuallyOp new_UntilOp
                                  new_GloballyOp];
                             auto using canonical_and_guarded, andb_true_intro ]
      | H : context [cbind (lift ?c) _] |- _ =>
          let E := fresh "E" in
          destruct c as [?y|?ex] eqn:E; cbn [lift cbind] in H;
          [ try (apply new_NextOp_inv in E; destruct E as [?s ->])
          | discriminate H]
      | H : match ?c with Ok _ => _ | Raise _ => _ end = Some _ |- _ =>
          let E := fresh "E" in
          destruct c as [?y|?ex] eqn:E;
          [ try (apply new_NextOp_inv in E; destruct E as [?s ->])
          | discriminate H]
      end.
  all: try match goal with
         | IH : forall e y : Expr, _,
           H : expand_intervals_fuel _ ?x = Some (Ok _) |- _ =>
             apply IH in H;
             [ exact H
             | cbn [and_guarded new_EventuallyOp new_UntilOp new_GloballyOp];
               auto using canonical_and_guarded, andb_true_intro ]
         end.
  all: try match goal with
         | H : context [isinstance_NotOp ?y] |- _ =>
             destruct (isinstance_NotOp y)
         end.
  all: try match goal with
         | H : match ?s with Some _ => _ | None => _ end = _ |- _ =>
             destruct s
         end.
  all: cbn [ret lift new_NextOp] in H; try discriminate H;
    try (injection H as <-).
  all: cbn [canonical new_EventuallyOp new_UntilOp collapse is_None];
    auto using for_range_next_canonical, for_range_or_canonical,
      andb_true_intro.
Qed.

(** ** Expansion of valid formulas returns a valid formula *)

Lemma TimeInterval_new_Some (t1 t2 : Z) :
  0 <= t1 < t2 ->
  TimeInterval.new (Some t1) (Some t2)
  = Ok (TimeInterval.mk (Some t1) (Some t2)).
Proof.
  intros H. unfold TimeInterval.new.
  destruct (Z.eqb_spec t1 t2); [lia|].
  destruct (Z.gtb_spec t1 t2); [lia|].
  destruct (Z.ltb_spec t1 0); [lia|].
  destruct (Z.ltb_spec t2 0); [lia|].
  reflexivity.
Qed.








Lemma cbind_lift_Ok {A B : Type} (a : A) (k : A -> comp B) :
  cbind (lift (Ok a)) k = k a.
Proof. reflexivity. Qed.


(** ** Iterating a time interval *)

Lemma instants_cons (start : Z) (len : nat) :
  instants start (S len) = start :: instants (start + 1) len.
Proof.
  unfold instants. cbn [seq map]. f_equal; [lia|].
  rewrite <- seq_shift, map_map. apply map_ext. intros k. lia.
Qed.

Lemma islice_count (n : nat) :
  forall s : Z, islice (count s) n = instants s n.
Proof.
  induction n as [|n IH]; intros s; [reflexivity|].
  cbn [islice next]. rewrite IH, instants_cons. reflexivity.
Qed.

Lemma count_never_stops (n : nat) :
  forall s : Z, stops_within (count s) n = false.
Proof.
  induction n as [|n IH]; intros s; cbn [stops_within next]; auto.
Qed.

Lemma islice_range (len : nat) :
  forall (cur stop : Z) (k : nat),
    Z.to_nat (stop - cur) = len ->
    islice (range cur stop) (len + k) = instants cur len.
Proof.
  induction len as [|len IH]; intros cur stop k Hlen.
  - destruct k as [|k]; [reflexivity|].
    cbn [Nat.add islice next].
    destruct (Z.ltb_spec cur stop); [lia | reflexivity].
  - cbn [Nat.add islice next].
    destruct (Z.ltb_spec cur stop); [|lia].
    rewrite instants_cons, (IH (cur + 1) stop k) by lia. reflexivity.
Qed.

Lemma range_stops (len : nat) :
  forall cur stop : Z,
    Z.to_nat (stop - cur) = len ->
    stops_within (range cur stop) len = true.
Proof.
  induction len as [|len IH]; intros cur stop Hlen.
  - cbn [stops_within next].
    destruct (Z.ltb_spec cur stop); [lia | reflexivity].
  - cbn [stops_within next].
    destruct (Z.ltb_spec cur stop); [|reflexivity].
    apply IH. lia.
Qed.

(** X21.  With the end bound present the iterator yields the instants from the
    start ([0] when absent) through the end inclusive, and stops. *)
Lemma TimeInterval_iter_bounded (start : option Z) (e : Z) (k : nat) :
  let i := TimeInterval.mk start (Some e) in
  let len := Z.to_nat (e + 1 - first_instant i) in
  islice (TimeInterval.iter i) (len + k) = instants (first_instant i) len
  /\ stops_within (TimeInterval.iter i) len = true.
Proof.
  destruct start as [s|]; cbn -[Z.to_nat Z.add Z.sub];
    (split; [apply islice_range | apply range_stops]); reflexivity.
Qed.

(** X22.  With a start bound and no end bound the iterator never stops. *)
Lemma TimeInterval_iter_lower_only (s : Z) (n : nat) :
  let i := TimeInterval.mk (Some s) None in
  islice (TimeInterval.iter i) n = instants s n
  /\ stops_within (TimeInterval.iter i) n = false.
Proof.
  cbn. split; [apply islice_count | apply count_never_stops].
Qed.

(** ** Consequences for [expand_intervals] *)

Lemma expand_intervals_fuel_enough (e : Expr) (k : nat) :
  expand_intervals_fuel (depth_bound e + k) e = expand_intervals e.
Proof.
  unfold expand_intervals.
  destruct (expand_intervals_fuel_bounded (depth_bound e) e (le_n _))
    as [r [Hr _]].
  rewrite Hr. apply (expand_intervals_fuel_mono _ _ _ Hr). lia.
Qed.


(** X2.  When no [AndOp] node hides an unexpanded operand, the returned formula
    has no [GloballyOp] and no bounded [EventuallyOp] or [UntilOp]. *)
Lemma expand_intervals_canonical (e y : Expr) :
  and_guarded e = true ->
  expand_intervals e = Some (Ok y) ->
  canonical y = true.
Proof. intros Hg H. exact (expand_intervals_fuel_canonical _ _ _ Hg H). Qed.

(** [NotOp.expand_intervals] returns the expanded operand itself when that
    operand is a [NotOp]. *)
Lemma expand_intervals_fuel_NotOp_collapse (n : nat) (a b : Expr) :
  expand_intervals_fuel n a = Some (Ok (NotOp b)) ->
  expand_intervals_fuel (S n) (NotOp a) = Some (Ok (NotOp b)).
Proof. intros H. cbn [expand_intervals_fuel]. rewrite H. reflexivity. Qed.

(** ** Bounded eventually: the code and the documented unrolling *)

Lemma expand_intervals_EventuallyOp_upper (t2 : Z) (a : Expr) :
  is_atomic a = true ->
  expand_intervals
    (EventuallyOp (Some (TimeInterval.mk (Some 0) (Some t2))) a)
  = Some (Ok (for_range t2 (fun expr => OrOp expr (NextOp None a)) a)).
Proof.
  intros Ha. unfold expand_intervals.
  destruct a; try discriminate; reflexivity.
Qed.

Lemma for_range_or_agrees_upto_1 (a : Expr) :
  for_range 0 (fun expr => OrOp expr (NextOp None a)) a
  = eventually_unrolled 0 a
  /\ for_range 1 (fun expr => OrOp expr (NextOp None a)) a
     = eventually_unrolled 1 a.
Proof. split; reflexivity. Qed.

Lemma for_range_or_not_unrolled (k : nat) (a : Expr) :
  is_atomic a = true ->
  for_range (Z.of_nat (S (S k))) (fun expr => OrOp expr (NextOp None a)) a
  <> eventually_unrolled (S (S k)) a.
Proof.
  intros Ha. unfold for_range. rewrite Nat2Z.id.
  unfold nested_next, Nat.iter.
  cbn [nat_rect eventually_unrolled nested_next Nat.iter].
  intros H. injection H as _ H.
  destruct a; discriminate.
Qed.

(** * The claims of the specification *)

(** C1.  The specification asks that [expand_intervals] of every [Expr]
    contain no [GloballyOp] node and no [EventuallyOp] or [UntilOp] node
    with an interval.  [AndOp] does not override [expand_intervals], so the
    call on [AndOp(GloballyOp(None, p), q)], a formula every constructor
    accepts, returns the formula itself, with its [GloballyOp] node. *)
Theorem expand_intervals_AndOp_keeps_GloballyOp :
  let e := AndOp (GloballyOp None (Identifier "p")) (Identifier "q") in
  valid e = true
  /\ expand_intervals e = Some (Ok e)
  /\ canonical e = false.
Proof. repeat split. Qed.

(** C2.  The specification asks that [F[0,2] p] expand to
    [(p | X p) | X X p].  The loop of [EventuallyOp.expand_intervals] adds
    the same disjunct [NextOp(None, arg)] at every round: the call returns
    [(p | X p) | X p], which is not the documented unrolling. *)
Theorem expand_intervals_EventuallyOp_0_2 :
  let p := Identifier "p" in
  let i := TimeInterval.mk (Some 0) (Some 2) in
  TimeInterval.new (Some 0) (Some 2) = Ok i
  /\ expand_intervals (new_EventuallyOp (Some i) p)
     = Some (Ok (OrOp (OrOp p (NextOp None p)) (NextOp None p)))
  /\ eventually_unrolled 2 p
     = OrOp (OrOp p (NextOp None p)) (NextOp None (NextOp None p))
  /\ expand_intervals (new_EventuallyOp (Some i) p)
     <> Some (Ok (eventually_unrolled 2 p)).
Proof.
  cbv zeta. repeat split. discriminate.
Qed.

(** C3.  The specification asks that [AndOp(l, r).expand_intervals()] be
    [AndOp(l.expand_intervals(), r.expand_intervals())].  [AndOp] inherits
    [Expr.expand_intervals], which returns [self]: the operands are not
    expanded, as on [AndOp(F[0,1] p, q)], whose left operand expands to
    [p | X p]. *)
Theorem expand_intervals_AndOp_returns_self :
  (forall l r : Expr, expand_intervals (AndOp l r) = Some (Ok (AndOp l r)))
  /\ (let p := Identifier "p" in
      let q := Identifier "q" in
      let l := EventuallyOp (Some (TimeInterval.mk (Some 0) (Some 1))) p in
      expand_intervals l = Some (Ok (OrOp p (NextOp None p)))
      /\ expand_intervals q = Some (Ok q)
      /\ expand_intervals (AndOp l q)
         <> Some (Ok (AndOp (OrOp p (NextOp None p)) q))).
Proof.
  split; [reflexivity|]. cbv zeta. repeat split. discriminate.
Qed.

(** C4.  [expand_intervals] terminates on every formula: the nested calls
    never go deeper than [depth_bound e], a number computed from the
    structure of [e] and the magnitude of its interval bounds, and any
    larger depth allowed gives the same outcome (a formula or a raised
    exception). *)
Theorem expand_intervals_terminates (e : Expr) (k : nat) :
  exists r : result Expr,
    expand_intervals_fuel (depth_bound e + k) e = Some r
    /\ expand_intervals e = Some r.
Proof.
  destruct (expand_intervals_fuel_bounded (depth_bound e) e (le_n _))
    as [r [Hr _]].
  exists r. rewrite expand_intervals_fuel_enough. split; exact Hr.
Qed.

(** C5.  The specification (and the docstring of [__iter__]) asks that an
    interval without an end bound iterate forever.
    [TimeInterval(None, None)] builds and is unbounded, yet matches no case
    of [__iter__]: the iterator is [iter([])] and stops at its first
    [next]. *)
Theorem TimeInterval_iter_None_None_stops :
  let i := TimeInterval.mk None None in
  TimeInterval.new None None = Ok i
  /\ TimeInterval.is_unbounded i = true
  /\ next (TimeInterval.iter i) = None
  /\ stops_within (TimeInterval.iter i) 0 = true.
Proof. repeat split. Qed.

(** C6.  For an atomic [p], [NotOp(NotOp(p)).expand_intervals()] is
    [NotOp(p)], which is not [p]: one layer of negation is dropped, not
    two. *)
Theorem expand_intervals_NotOp_NotOp_atomic (p : Expr) :
  is_atomic p = true ->
  expand_intervals (NotOp (NotOp p)) = Some (Ok (NotOp p))
  /\ NotOp p <> p.
Proof.
  intros Hp. destruct p; try discriminate Hp; split;
    solve [reflexivity | discriminate].
Qed.

Lemma expand_intervals_NotOp_NotOp_atomic_witness :
  is_atomic (Identifier "p") = true
  /\ expand_intervals (NotOp (NotOp (Identifier "p")))
     = Some (Ok (NotOp (Identifier "p")))
  /\ NotOp (Identifier "p") <> Identifier "p".
Proof.
  split; [reflexivity|].
  apply (expand_intervals_NotOp_NotOp_atomic (Identifier "p")). reflexivity.
Defined.

(** C7.  [TimeInterval(t1, t2)] with both bounds present raises a
    [ValueError] when [t1 = t2], when [t1 > t2], and when a bound is
    negative; no interval is returned. *)
Theorem TimeInterval_new_rejects (t1 t2 : Z) :
  t1 = t2 \/ t1 > t2 \/ t1 < 0 \/ t2 < 0 ->
  exists msg : string,
    TimeInterval.new (Some t1) (Some t2) = Raise (ValueError msg).
Proof.
  intros H. unfold TimeInterval.new.
  destruct (Z.eqb_spec t1 t2); [eauto|].
  destruct (Z.gtb_spec t1 t2); [eauto|].
  destruct (Z.ltb_spec t1 0); [cbn [orb]; eauto|].
  destruct (Z.ltb_spec t2 0); [cbn [orb]; eauto|].
  lia.
Qed.

Lemma TimeInterval_new_rejects_witness :
  ((-1) = 4 \/ (-1) > 4 \/ (-1) < 0 \/ 4 < 0)
  /\ exists msg : string,
       TimeInterval.new (Some (-1)) (Some 4) = Raise (ValueError msg).
Proof.
  split; [lia|]. apply (TimeInterval_new_rejects (-1) 4). lia.
Defined.

(** C8.  [DistanceInterval(None, None)] builds with [start = 0.0] and
    [end = inf]; [DistanceInterval(1.0, 1.0)] and
    [DistanceInterval(-1.0, 2.0)] raise a [ValueError]. *)
Theorem DistanceInterval_new_examples :
  DistanceInterval.new None None
  = Ok (DistanceInterval.mk 0%float infinity)
  /\ is_ValueError (DistanceInterval.new (Some 1%float) (Some 1%float)) = true
  /\ is_ValueError (DistanceInterval.new (Some (-1)%float) (Some 2%float))
     = true.
Proof. repeat split. Qed.

(** C9.  For every [p], [NextOp(1, p)] is the value [NextOp(None, p)], and
    [NextOp(0, p)] and [NextOp(-1, p)] raise a [ValueError]. *)
Theorem new_NextOp_normalizes (p : Expr) :
  new_NextOp (Some 1) p = new_NextOp None p
  /\ new_NextOp (Some 1) p = Ok (NextOp None p)
  /\ is_ValueError (new_NextOp (Some 0) p) = true
  /\ is_ValueError (new_NextOp (Some (-1)) p) = true.
Proof. repeat split. Qed.

(** C10.  With exactly one bound [None] the other bound is not validated:
    [TimeInterval(t, None)] and [TimeInterval(None, t)] build for every
    integer [t], [-5] included. *)
Theorem TimeInterval_new_one_bound_unchecked :
  (forall t : Z,
      TimeInterval.new (Some t) None = Ok (TimeInterval.mk (Some t) None)
      /\ TimeInterval.new None (Some t) = Ok (TimeInterval.mk None (Some t)))
  /\ TimeInterval.new (Some (-5)) None
     = Ok (TimeInterval.mk (Some (-5)) None)
  /\ TimeInterval.new None (Some (-5))
     = Ok (TimeInterval.mk None (Some (-5))).
Proof. repeat split. Qed.

(** * Further properties of the code *)

(** ** From a depth that suffices to [expand_intervals] and back *)

Lemma expand_intervals_of_fuel (n : nat) (e : Expr) (r : result Expr) :
  expand_intervals_fuel n e = Some r -> expand_intervals e = Some r.
Proof.
  intros H.
  rewrite <- (expand_intervals_fuel_enough e n).
  apply (expand_intervals_fuel_mono _ _ _ H). lia.
Qed.

Lemma expand_intervals_at (e : Expr) (r : result Expr) (n : nat) :
  expand_intervals e = Some r ->
  (depth_bound e <= n)%nat ->
  expand_intervals_fuel n e = Some r.
Proof.
  intros H Hn. exact (expand_intervals_fuel_mono _ _ _ H _ Hn).
Qed.

Lemma nested_next_for_range (t : Z) (a : Expr) :
  for_range t (fun expr => NextOp None expr) a = nested_next (Z.to_nat t) a.
Proof. reflexivity. Qed.

(** ** The shape of the returned formula *)

Lemma for_range_next_expanded (t : Z) (a : Expr) :
  expanded a = true ->
  expanded (for_range t (fun expr => NextOp None expr) a) = true.
Proof.
  intros Ha. unfold for_range, Nat.iter.
  induction (Z.to_nat t) as [|k IH]; cbn [nat_rect expanded is_None andb];
    assumption.
Qed.

Lemma for_range_or_expanded (t : Z) (a : Expr) :
  expanded a = true ->
  expanded (for_range t (fun expr => OrOp expr (NextOp None a)) a) = true.
Proof.
  intros Ha. unfold for_range, Nat.iter.
  induction (Z.to_nat t) as [|k IH]; cbn [nat_rect expanded is_None andb];
    rewrite ?IH, ?Ha; reflexivity.
Qed.

Lemma expanded_negation_of (a : Expr) :
  expanded a = true -> expanded (negation_of a) = true.
Proof.
  intros Ha. unfold negation_of.
  destruct (isinstance_NotOp a) eqn:E; [assumption|].
  cbn [expanded]. rewrite E, Ha. reflexivity.
Qed.

Lemma expand_intervals_fuel_expanded (n : nat) :
  forall e y : Expr,
    expand_intervals_fuel n e = Some (Ok y) ->
    expanded y = true.
Proof.
  induction n as [|n IH]; intros e r H; [discriminate|].
  destruct e as [v|name|arg|lhs rhs|lhs rhs|di arg|di arg|di arg|lhs di rhs
                |steps arg|interval arg|interval arg|lhs interval rhs];
    cbn [expand_intervals_fuel] in H;
    try (destruct interval as [[[[|p|p]|] [t2|]]|]);
    cbn [assert Z.gtb Z.compare cbind ret raise] in H;
    repeat match goal with
      | H : context [cbind (expand_intervals_fuel n ?x) _] |- _ =>
          let E := fresh "E" in
          destruct (expand_intervals_fuel n x) as [[?y|?ex]|] eqn:E;
          cbn [cbind] in H; [ | discriminate H | discriminate H];
          apply IH in E
      | H : context [cbind (lift ?c) _] |- _ =>
          destruct c as [?y|?ex]; cbn [lift cbind] in H;
          [ | discriminate H]
      | H : match ?c with Ok _ => _ | Raise _ => _ end = Some _ |- _ =>
          destruct c as [?y|?ex]; [ | discriminate H]
      end.
  all: try match goal with
         | IH : forall e y : Expr, _,
           H : expand_intervals_fuel _ ?x = Some (Ok _) |- _ =>
             apply IH in H; exact H
         end.
  all: try match goal with
         | H : context [isinstance_NotOp ?y] |- _ =>
             let E := fresh "E" in
             destruct (isinstance_NotOp y) eqn:E
         end.
  all: try match goal with
         | H : match ?s with Some _ => _ | None => _ end = _ |- _ =>
             destruct s
         end.
  all: cbn [ret lift new_NextOp] in H; try discriminate H;
    try (injection H as <-).
  all: cbn [expanded new_EventuallyOp new_UntilOp collapse is_None andb];
    try match goal with
      | E : isinstance_NotOp _ = false |- _ => rewrite E; cbn [negb andb]
      end;
    auto using for_range_next_expanded, for_range_or_expanded,
      expanded_negation_of, andb_true_intro.
Qed.


(** ** What the branches of [expand_intervals] compute *)

Lemma depth_bound_NextOp (steps : option Z) (a : Expr) :
  (1 + depth_bound a <= depth_bound (NextOp steps a))%nat.
Proof. cbn [depth_bound]. lia. Qed.

(** X3.  Whatever [expand_intervals] returns is in expanded form: outside
    the operands of [AndOp] nodes it has no [GloballyOp], no interval on an
    [EventuallyOp] or [UntilOp], only single-step [NextOp]s and no [NotOp]
    directly under a [NotOp]. *)
Theorem expand_intervals_expanded (e y : Expr) :
  expand_intervals e = Some (Ok y) -> expanded y = true.
Proof. apply expand_intervals_fuel_expanded. Qed.

Lemma expand_intervals_expanded_witness :
  expand_intervals (GloballyOp None (NextOp (Some 2) (Identifier "p")))
  = Some (Ok (NotOp (EventuallyOp None
       (NotOp (NextOp None (NextOp None (Identifier "p")))))))
  /\ expanded (NotOp (EventuallyOp None
       (NotOp (NextOp None (NextOp None (Identifier "p")))))) = true.
Proof.
  split; [reflexivity|].
  apply (expand_intervals_expanded
           (GloballyOp None (NextOp (Some 2) (Identifier "p")))).
  reflexivity.
Defined.





(** X6.  [NextOp(steps, a)] expands to the expansion of [a] under [steps]
    single-step [NextOp]s (one when [steps] is [None]). *)
Theorem expand_intervals_NextOp (steps : option Z) (a a' : Expr) :
  expand_intervals a = Some (Ok a') ->
  expand_intervals (NextOp steps a)
  = Some (Ok (nested_next (steps_of steps) a')).
Proof.
  intros Ha. apply (expand_intervals_of_fuel (S (depth_bound a))).
  cbn [expand_intervals_fuel]. fold (expand_intervals a). rewrite Ha.
  destruct steps; reflexivity.
Qed.

Lemma expand_intervals_NextOp_witness :
  expand_intervals (Identifier "a") = Some (Ok (Identifier "a"))
  /\ expand_intervals (NextOp (Some 3) (Identifier "a"))
     = Some (Ok (nested_next (steps_of (Some 3)) (Identifier "a"))).
Proof.
  split; [reflexivity|].
  apply (expand_intervals_NextOp (Some 3) (Identifier "a")). reflexivity.
Defined.

Lemma expand_intervals_fuel_NotOp_is_NotOp (n : nat) (a y : Expr) :
  expand_intervals_fuel n (NotOp a) = Some (Ok y) ->
  isinstance_NotOp y = true.
Proof.
  destruct n as [|n]; [discriminate|]. cbn [expand_intervals_fuel].
  destruct (expand_intervals_fuel n a) as [[a'|ex]|]; cbn [cbind];
    try discriminate.
  destruct (isinstance_NotOp a') eqn:E; intros [= <-]; [exact E | reflexivity].
Qed.

Lemma expand_intervals_fuel_GloballyOp
    (n : nat) (interval : option TimeInterval.t) (a : Expr) :
  expand_intervals_fuel (S n) (GloballyOp interval a)
  = expand_intervals_fuel n (NotOp (new_EventuallyOp interval (NotOp a))).
Proof. reflexivity. Qed.

Lemma expand_intervals_fuel_NotOp (n : nat) (a : Expr) :
  expand_intervals_fuel (S n) (NotOp a)
  = (a' <- expand_intervals_fuel n a ;;
     if isinstance_NotOp a' then ret a' else ret (NotOp a')).
Proof. reflexivity. Qed.

Lemma expand_intervals_fuel_EventuallyOp_None (n : nat) (a : Expr) :
  expand_intervals_fuel (S n) (EventuallyOp None a)
  = (a' <- expand_intervals_fuel n a ;; ret (new_EventuallyOp None a')).
Proof. reflexivity. Qed.

(** X7.  Whatever [GloballyOp(interval, a).expand_intervals()] returns is a
    [NotOp] node. *)
Theorem expand_intervals_GloballyOp_is_NotOp
    (interval : option TimeInterval.t) (a y : Expr) :
  expand_intervals (GloballyOp interval a) = Some (Ok y) ->
  isinstance_NotOp y = true.
Proof.
  unfold expand_intervals. cbn [depth_bound].
  change (6 + interval_bound interval + depth_bound a)%nat
    with (S (5 + interval_bound interval + depth_bound a)).
  rewrite expand_intervals_fuel_GloballyOp.
  apply expand_intervals_fuel_NotOp_is_NotOp.
Qed.

Lemma expand_intervals_GloballyOp_is_NotOp_witness :
  expand_intervals
    (GloballyOp (Some (TimeInterval.mk (Some 0) (Some 1))) (Identifier "p"))
  = Some (Ok (NotOp (OrOp (NotOp (Identifier "p"))
                          (NextOp None (NotOp (Identifier "p"))))))
  /\ isinstance_NotOp
       (NotOp (OrOp (NotOp (Identifier "p"))
                    (NextOp None (NotOp (Identifier "p"))))) = true.
Proof.
  split; [reflexivity|].
  apply (expand_intervals_GloballyOp_is_NotOp
           (Some (TimeInterval.mk (Some 0) (Some 1))) (Identifier "p")).
  reflexivity.
Defined.

Lemma expand_intervals_NotOp (a a' : Expr) :
  expand_intervals a = Some (Ok a') ->
  expand_intervals (NotOp a) = Some (Ok (negation_of a')).
Proof.
  intros Ha. apply (expand_intervals_of_fuel (S (depth_bound a))).
  cbn [expand_intervals_fuel]. fold (expand_intervals a). rewrite Ha.
  unfold negation_of. cbn [cbind]. destruct (isinstance_NotOp a'); reflexivity.
Qed.

(** X8.  An unbounded [GloballyOp] expands by duality: [G a] becomes
    [! F ! a'], where [a'] is the expansion of [a], and no second [NotOp] is
    put on an [a'] that is itself a [NotOp]. *)
Theorem expand_intervals_GloballyOp_unbounded
    (interval : option TimeInterval.t) (a a' : Expr) :
  collapse interval = None ->
  expand_intervals a = Some (Ok a') ->
  expand_intervals (GloballyOp interval a)
  = Some (Ok (NotOp (EventuallyOp None (negation_of a')))).
Proof.
  intros Hc Ha.
  pose proof (expand_intervals_NotOp a a' Ha) as Hn.
  apply (expand_intervals_of_fuel
           (S (S (S (depth_bound (NotOp a)))))).
  rewrite expand_intervals_fuel_GloballyOp.
  unfold new_EventuallyOp. rewrite Hc.
  rewrite expand_intervals_fuel_NotOp, expand_intervals_fuel_EventuallyOp_None.
  fold (expand_intervals (NotOp a)). rewrite Hn. reflexivity.
Qed.

Lemma expand_intervals_GloballyOp_unbounded_witness :
  collapse (Some (TimeInterval.mk (Some 0) None)) = None
  /\ expand_intervals (NotOp (Identifier "p"))
     = Some (Ok (NotOp (Identifier "p")))
  /\ expand_intervals
       (GloballyOp (Some (TimeInterval.mk (Some 0) None))
          (NotOp (Identifier "p")))
     = Some (Ok (NotOp (EventuallyOp None
          (negation_of (NotOp (Identifier "p")))))).
Proof.
  split; [reflexivity|]. split; [reflexivity|].
  apply (expand_intervals_GloballyOp_unbounded
           (Some (TimeInterval.mk (Some 0) None)) (NotOp (Identifier "p")));
    reflexivity.
Defined.

Lemma expand_intervals_EventuallyOp_from_0 (start : option Z) (t2 : Z)
    (a a' : Expr) :
  start = None \/ start = Some 0 ->
  expand_intervals a = Some (Ok a') ->
  expand_intervals (EventuallyOp (Some (TimeInterval.mk start (Some t2))) a)
  = Some (Ok (or_chain t2 a')).
Proof.
  intros Hs Ha. apply (expand_intervals_of_fuel (S (depth_bound a))).
  destruct Hs as [-> | ->]; cbn [expand_intervals_fuel];
    fold (expand_intervals a); rewrite Ha; reflexivity.
Qed.

Lemma new_NextOp_positive (t : Z) (a : Expr) :
  0 < t ->
  exists steps,
    new_NextOp (Some t) a = Ok (NextOp steps a)
    /\ steps_of steps = Z.to_nat t.
Proof.
  intros Ht. unfold new_NextOp.
  destruct (Z.leb_spec t 0); [lia|].
  destruct (Z.eqb_spec t 1) as [-> | Hne]; eexists; split; reflexivity.
Qed.

(** X9.  For [0 < t1 < t2], [F[t1, t2] a] expands to the expansion of
    [F[0, t2 - t1] a] under [t1] single-step [NextOp]s. *)
Theorem expand_intervals_EventuallyOp_shifted (t1 t2 : Z) (a a' : Expr) :
  0 < t1 < t2 ->
  expand_intervals a = Some (Ok a') ->
  expand_intervals
    (EventuallyOp (Some (TimeInterval.mk (Some t1) (Some t2))) a)
  = Some (Ok (nested_next (Z.to_nat t1) (or_chain (t2 - t1) a'))).
Proof.
  intros Ht Ha.
  set (inner := EventuallyOp
                  (Some (TimeInterval.mk (Some 0) (Some (t2 - t1)))) a).
  assert (Hi : expand_intervals inner = Some (Ok (or_chain (t2 - t1) a')))
    by (apply expand_intervals_EventuallyOp_from_0; auto).
  destruct (new_NextOp_positive t1 inner) as [steps [Hn Hs]]; [lia|].
  pose proof (expand_intervals_NextOp steps inner _ Hi) as Hx.
  rewrite Hs in Hx.
  apply (expand_intervals_of_fuel (S (depth_bound (NextOp steps inner)))).
  destruct t1 as [|p|p]; try lia.
  cbn [expand_intervals_fuel assert Z.gtb Z.compare cbind ret].
  rewrite TimeInterval_new_Some by lia. rewrite cbind_lift_Ok.
  change (new_EventuallyOp
            (Some (TimeInterval.mk (Some 0) (Some (t2 - Z.pos p)))) a)
    with inner.
  rewrite Hn, cbind_lift_Ok. exact Hx.
Qed.

Lemma expand_intervals_EventuallyOp_shifted_witness :
  0 < 2 < 4
  /\ expand_intervals (Identifier "p") = Some (Ok (Identifier "p"))
  /\ expand_intervals
       (EventuallyOp (Some (TimeInterval.mk (Some 2) (Some 4)))
          (Identifier "p"))
     = Some (Ok (nested_next (Z.to_nat 2) (or_chain (4 - 2) (Identifier "p")))).
Proof.
  split; [lia|]. split; [reflexivity|].
  apply (expand_intervals_EventuallyOp_shifted 2 4 (Identifier "p"));
    [lia | reflexivity].
Defined.

(** X10.  For [0 < t1], [F[t1, inf] a] expands to the unbounded
    [EventuallyOp] of the expansion of [a] under [t1] single-step
    [NextOp]s. *)
Theorem expand_intervals_EventuallyOp_lower (t1 : Z) (a a' : Expr) :
  0 < t1 ->
  expand_intervals a = Some (Ok a') ->
  expand_intervals (EventuallyOp (Some (TimeInterval.mk (Some t1) None)) a)
  = Some (Ok (nested_next (Z.to_nat t1) (EventuallyOp None a'))).
Proof.
  intros Ht Ha.
  set (inner := EventuallyOp None a).
  assert (Hi : expand_intervals inner = Some (Ok (EventuallyOp None a'))).
  { apply (expand_intervals_of_fuel (S (depth_bound a))).
    cbn [inner expand_intervals_fuel]. fold (expand_intervals a).
    rewrite Ha. reflexivity. }
  destruct (new_NextOp_positive t1 inner) as [steps [Hn Hs]]; [lia|].
  pose proof (expand_intervals_NextOp steps inner _ Hi) as Hx.
  rewrite Hs in Hx.
  apply (expand_intervals_of_fuel (S (depth_bound (NextOp steps inner)))).
  destruct t1 as [|p|p]; try lia.
  cbn [expand_intervals_fuel assert Z.gtb Z.compare cbind ret].
  change (new_EventuallyOp None a) with inner.
  rewrite Hn, cbind_lift_Ok. exact Hx.
Qed.

Lemma expand_intervals_EventuallyOp_lower_witness :
  0 < 2
  /\ expand_intervals (Identifier "p") = Some (Ok (Identifier "p"))
  /\ expand_intervals
       (EventuallyOp (Some (TimeInterval.mk (Some 2) None)) (Identifier "p"))
     = Some (Ok (nested_next (Z.to_nat 2) (EventuallyOp None (Identifier "p")))).
Proof.
  split; [lia|]. split; [reflexivity|].
  apply (expand_intervals_EventuallyOp_lower 2 (Identifier "p"));
    [lia | reflexivity].
Defined.

(** X11.  [TimeInterval(t1, None)] builds for a negative [t1], and
    [EventuallyOp] over it raises [AssertionError] when expanded, whatever
    its operand. *)
Theorem expand_intervals_EventuallyOp_negative_start (t1 : Z) (a : Expr) :
  t1 < 0 ->
  TimeInterval.new (Some t1) None = Ok (TimeInterval.mk (Some t1) None)
  /\ expand_intervals
       (new_EventuallyOp (Some (TimeInterval.mk (Some t1) None)) a)
     = Some (Raise (AssertionError "")).
Proof.
  intros Ht. split; [reflexivity|].
  destruct t1 as [|p|p]; try lia. reflexivity.
Qed.

Lemma expand_intervals_EventuallyOp_negative_start_witness :
  (-5) < 0
  /\ TimeInterval.new (Some (-5)) None
     = Ok (TimeInterval.mk (Some (-5)) None)
  /\ expand_intervals
       (new_EventuallyOp (Some (TimeInterval.mk (Some (-5)) None))
          (Identifier "p"))
     = Some (Raise (AssertionError "")).
Proof.
  split; [lia|].
  apply (expand_intervals_EventuallyOp_negative_start (-5) (Identifier "p")).
  lia.
Defined.

(** X12.  [UntilOp] over [TimeInterval(t1, None)] with a negative [t1]
    raises [ValueError] when expanded, once both operands have expanded:
    the method builds [TimeInterval(0, t1)]. *)
Theorem expand_intervals_UntilOp_negative_start (t1 : Z) (l r l' r' : Expr) :
  t1 < 0 ->
  expand_intervals l = Some (Ok l') ->
  expand_intervals r = Some (Ok r') ->
  expand_intervals (new_UntilOp l (Some (TimeInterval.mk (Some t1) None)) r)
  = Some (Raise (ValueError "Time interval [a,b] cannot have a > b")).
Proof.
  intros Ht Hl Hr.
  apply (expand_intervals_of_fuel (S (depth_bound l + depth_bound r))).
  destruct t1 as [|p|p]; try lia.
  cbn [new_UntilOp collapse expand_intervals_fuel].
  rewrite (expand_intervals_at l _ _ Hl) by lia.
  rewrite (expand_intervals_at r _ _ Hr) by lia.
  reflexivity.
Qed.

Lemma expand_intervals_UntilOp_negative_start_witness :
  (-1) < 0
  /\ expand_intervals (Identifier "p") = Some (Ok (Identifier "p"))
  /\ expand_intervals (Identifier "q") = Some (Ok (Identifier "q"))
  /\ expand_intervals
       (new_UntilOp (Identifier "p")
          (Some (TimeInterval.mk (Some (-1)) None)) (Identifier "q"))
     = Some (Raise (ValueError "Time interval [a,b] cannot have a > b")).
Proof.
  split; [lia|]. split; [reflexivity|]. split; [reflexivity|].
  apply (expand_intervals_UntilOp_negative_start (-1)
           (Identifier "p") (Identifier "q") (Identifier "p") (Identifier "q"));
    [lia | reflexivity | reflexivity].
Defined.

(** ** Witnesses for the consequences stated above *)


Lemma expand_intervals_canonical_witness :
  and_guarded (GloballyOp (Some (TimeInterval.mk (Some 1) (Some 2)))
                 (Identifier "p")) = true
  /\ expand_intervals
       (GloballyOp (Some (TimeInterval.mk (Some 1) (Some 2))) (Identifier "p"))
     = Some (Ok (NotOp (NextOp None
          (OrOp (NotOp (Identifier "p"))
                (NextOp None (NotOp (Identifier "p")))))))
  /\ canonical (NotOp (NextOp None
          (OrOp (NotOp (Identifier "p"))
                (NextOp None (NotOp (Identifier "p")))))) = true.
Proof.
  split; [reflexivity|]. split; [reflexivity|].
  apply (expand_intervals_canonical
           (GloballyOp (Some (TimeInterval.mk (Some 1) (Some 2)))
              (Identifier "p"))); reflexivity.
Defined.

(** ** Bounded until *)








(** ** The size of a bounded eventually *)

Lemma node_count_or_chain (t2 : Z) (a : Expr) :
  node_count (or_chain t2 a)
  = (node_count a + Z.to_nat t2 * (node_count a + 2))%nat.
Proof.
  unfold or_chain, for_range, Nat.iter.
  induction (Z.to_nat t2) as [|k IH]; cbn [nat_rect node_count]; [lia|].
  rewrite IH. lia.
Qed.

(** X15.  For [a] expanding to [a'], [F[0, t2] a] expands to a formula of
    [n + t2 * (n + 2)] nodes, [n] the number of nodes of [a'] (and of [n]
    nodes when [t2 <= 0]): the size grows linearly in the bound. *)
Theorem expand_intervals_EventuallyOp_size (start : option Z) (t2 : Z)
    (a a' : Expr) :
  start = None \/ start = Some 0 ->
  expand_intervals a = Some (Ok a') ->
  exists y,
    expand_intervals (EventuallyOp (Some (TimeInterval.mk start (Some t2))) a)
    = Some (Ok y)
    /\ node_count y
       = (node_count a' + Z.to_nat t2 * (node_count a' + 2))%nat.
Proof.
  intros Hs Ha. exists (or_chain t2 a'). split.
  - apply expand_intervals_EventuallyOp_from_0; assumption.
  - apply node_count_or_chain.
Qed.

Lemma expand_intervals_EventuallyOp_size_witness :
  (@None Z = None \/ None = Some 0)
  /\ expand_intervals (NotOp (Identifier "p"))
     = Some (Ok (NotOp (Identifier "p")))
  /\ exists y,
       expand_intervals
         (EventuallyOp (Some (TimeInterval.mk None (Some 3)))
            (NotOp (Identifier "p")))
       = Some (Ok y)
       /\ node_count y
          = (node_count (NotOp (Identifier "p"))
             + Z.to_nat 3 * (node_count (NotOp (Identifier "p")) + 2))%nat.
Proof.
  split; [left; reflexivity|]. split; [reflexivity|].
  apply (expand_intervals_EventuallyOp_size None 3 (NotOp (Identifier "p")));
    [left; reflexivity | reflexivity].
Defined.

(** ** Intervals and their constructors *)

(** X16.  With both bounds present, [TimeInterval(t1, t2)] builds exactly
    when [0 <= t1 < t2]. *)
Theorem TimeInterval_new_Ok_iff (t1 t2 : Z) :
  TimeInterval.new (Some t1) (Some t2)
  = Ok (TimeInterval.mk (Some t1) (Some t2))
  <-> 0 <= t1 < t2.
Proof.
  split.
  - apply TimeInterval_new_valid.
  - apply TimeInterval_new_Some.
Qed.


(** ** Negation through [__invert__] *)

Lemma NotOp_NotOp_neq (a : Expr) : NotOp (NotOp a) <> a.
Proof.
  induction a; try discriminate.
  intros H. injection H as H. exact (IHa H).
Qed.

(** X18.  [~~e] is [e] again exactly when [e] is not a double negation
    [NotOp(NotOp(_))]; on a double negation [~~e] has lost two [NotOp]s. *)
Theorem invert_invert (e : Expr) :
  invert (invert e) = e <-> is_double_negation e = false.
Proof.
  destruct e as [v|name|arg|lhs rhs|lhs rhs|di arg|di arg|di arg|lhs di rhs
                |steps arg|interval arg|interval arg|lhs interval rhs];
    try (split; reflexivity).
  destruct arg; try (split; reflexivity).
  cbn [invert is_double_negation]. split; [|discriminate].
  intros H. symmetry in H. destruct (NotOp_NotOp_neq _ H).
Qed.

(** ** Distance intervals *)



(** ** Quoted identifiers *)

Lemma substring_0_app (s t : string) :
  substring 0 (String.length s) (s ++ t) = s.
Proof.
  induction s as [|c s IH]; cbn [String.length append substring].
  - destruct t; reflexivity.
  - rewrite IH. reflexivity.
Qed.

Lemma length_app_one (s : string) (c : Ascii.ascii) :
  String.length (s ++ String c EmptyString) = S (String.length s).
Proof.
  induction s as [|c0 s IH]; cbn [String.length append];
    [reflexivity | rewrite IH; reflexivity].
Qed.

Lemma ESCAPED_STRING_quoted (c c' : Ascii.ascii) (s : string) :
  ESCAPED_STRING (String c (s ++ String c' EmptyString)) = s.
Proof.
  unfold ESCAPED_STRING. cbn [String.length].
  rewrite length_app_one. cbn [substring].
  replace (S (S (String.length s)) - 2)%nat with (String.length s) by lia.
  apply substring_0_app.
Qed.

(** X20.  A name that [__str__] renders in quotes (one that is not
    alphanumeric) is given back by [ESCAPED_STRING] from its rendering. *)
Theorem ESCAPED_STRING_Identifier_str
    (isalnum : string -> bool) (name : string) :
  isalnum name = false ->
  ESCAPED_STRING (Identifier_str isalnum name) = name.
Proof.
  intros H. unfold Identifier_str. rewrite H. apply ESCAPED_STRING_quoted.
Qed.

Lemma ESCAPED_STRING_Identifier_str_witness :
  (fun _ : string => false) "a b" = false
  /\ ESCAPED_STRING (Identifier_str (fun _ => false) "a b") = "a b".
Proof.
  split; [reflexivity|].
  apply (ESCAPED_STRING_Identifier_str (fun _ => false) "a b"). reflexivity.
Defined.
